(** * The thread backend of pstl's parallel [for_each]

    A shallow embedding of
    [pstl/include/pstl/internal/thread/par_for_each.h]
    (namespace [__pstl_thread_backend]) and the properties of its
    partitioner, its sequential and parallel executors and its dispatcher.

    Conventions of the embedding.
    - An iterator of a random-access range is its position in the underlying
      sequence, an integer; [std::distance] is subtraction and [std::advance]
      is addition.  The sequential walk only needs [++] and [!=] and is
      embedded over an arbitrary iterator type.
    - [std::size_t] is a 64-bit unsigned integer: a [Z] reduced modulo
      [2^64] wherever the source computes one.
    - The callable [f] is known by its effect only: the log of the iterators
      it was applied to ([p] in a log stands for the call [f( *p )]), one log
      per thread, in the order of the calls of that thread.
    - Undefined behaviour that the source can reach (indexing a vector out of
      range, dividing by zero) and non-termination are results of their own,
      see [fault]. *)

From Stdlib Require Import ZArith Lia.
From stdpp Require Import base decidable option list list_numbers numbers.

Local Open Scope Z_scope.

(** ** Results of a computation *)

Inductive fault : Set :=
| DivisionByZero   (* [n / 0] on [std::size_t] *)
| OutOfRange       (* [v[i]] with [i >= v.size()] *)
| Diverges.        (* a loop that does not stop within the fuel it was given *)

Inductive outcome (A : Type) : Type :=
| Ret (a : A)
| Fault (e : fault).
Arguments Ret {A} a.
Arguments Fault {A} e.

Global Instance fault_eq_dec : EqDecision fault.
Proof. solve_decision. Defined.

Global Instance outcome_ret : MRet outcome := fun A a => Ret a.
Global Instance outcome_bind : MBind outcome := fun A B k m =>
  match m with
  | Ret a => k a
  | Fault e => Fault e
  end.

(** A computation that may also ask the execution-unit provider: the state
    threaded through is the number of queries made so far. *)
Definition exec (A : Type) : Type := nat → nat * outcome A.

Global Instance exec_ret : MRet exec := fun A a q => (q, Ret a).
Global Instance exec_bind : MBind exec := fun A B k m q =>
  match m q with
  | (q', Ret a) => k a q'
  | (q', Fault e) => (q', Fault e)
  end.

Definition lift {A : Type} (m : outcome A) : exec A := fun q => (q, m).

(** ** [std::size_t], [std::ptrdiff_t] and [std::vector] *)

Definition SIZE_MAX : Z := 2 ^ 64 - 1.
Definition PTRDIFF_MAX : Z := 2 ^ 63 - 1.

(** Conversion to [std::size_t]: reduction modulo [2^64]. *)
Definition to_size_t (x : Z) : Z := x mod 2 ^ 64.

(** Conversion of a [std::size_t] to the signed [difference_type]. *)
Definition to_ptrdiff_t (x : Z) : Z := (x + 2 ^ 63) mod 2 ^ 64 - 2 ^ 63.

(** [a / b] on [std::size_t]. *)
Definition size_t_div (a b : Z) : outcome Z :=
  if decide (b = 0) then Fault DivisionByZero else Ret (a / b).

(** [v[i]] read and written; [operator[]] does not check its index. *)
Definition vec_read {A : Type} (v : list A) (i : Z) : outcome A :=
  match v !! Z.to_nat i with
  | Some x => Ret x
  | None => Fault OutOfRange
  end.

Definition vec_write {A : Type} (v : list A) (i : Z) (x : A) : outcome (list A) :=
  if decide (Z.to_nat i < length v)%nat
  then Ret (<[Z.to_nat i := x]> v)
  else Fault OutOfRange.

(** [for (std::size_t i = i0; i != n; i++) body], on a loop state [S]. *)
Fixpoint for_ne_from {S : Type} (fuel : nat) (i n : Z)
    (body : Z → S → outcome S) (s : S) : outcome S :=
  if decide (i = n) then Ret s
  else match fuel with
       | O => Fault Diverges
       | Datatypes.S fuel' =>
           s' ← body i s; for_ne_from fuel' (to_size_t (i + 1)) n body s'
       end.

(** From [i = 0] the counter meets [n] after [n] increments, so that much
    fuel is all the loop can use (see [for_ne_total] below). *)
Definition for_ne {S : Type} (n : Z) (body : Z → S → outcome S) (s : S) : outcome S :=
  for_ne_from (Z.to_nat n) 0 n body s.

(** ** Random-access iterators as positions *)

Definition distance (first sent : Z) : Z := sent - first.
Definition advance (iter : Z) (k : Z) : Z := iter + k.

(** A value-initialised iterator, as [std::vector<Iter> v(k)] holds. *)
Definition value_initialized : Z := 0.

(** ** [__for_each::sequential] *)

Section Sequential.
Context {Iter : Type} `{EqDecision Iter}.
(** [++first] *)
Variable next : Iter → Iter.

(** One turn of [while (first != sent) f( *first++ );] on the pair of the
    loop variable and the log of [f]; [None] when the loop exits. *)
Definition sequential_step (sent : Iter) (st : Iter * list Iter)
    : option (Iter * list Iter) :=
  let '(first, log) := st in
  if decide (first = sent) then None
  else Some (next first, log ++ [first]).

Fixpoint sequential_loop (fuel : nat) (sent : Iter) (st : Iter * list Iter)
    : outcome (Iter * list Iter) :=
  match sequential_step sent st with
  | None => Ret st                      (* [return first;] *)
  | Some st' =>
      match fuel with
      | O => Fault Diverges
      | Datatypes.S fuel' => sequential_loop fuel' sent st'
      end
  end.

(** The value returned and the calls of [f], in order. *)
Definition sequential (fuel : nat) (first sent : Iter) : outcome (Iter * list Iter) :=
  sequential_loop fuel sent (first, []).

(** The iterators [first, ++first, ...], [k] of them. *)
Fixpoint walk (k : nat) (first : Iter) : list Iter :=
  match k with
  | O => []
  | Datatypes.S k' => first :: walk k' (next first)
  end.

(** [sent] is [k] single steps after [first] and no earlier iterator of
    the walk equals it: [k] is the length of the range [[first, sent)]. *)
Definition range_length (first sent : Iter) (k : nat) : Prop :=
  Nat.iter k next first = sent ∧ Forall (λ p, p ≠ sent) (walk k first).

(** [sent] is reachable from [first] by finitely many single steps. *)
Definition reachable (first sent : Iter) : Prop :=
  ∃ k : nat, Nat.iter k next first = sent.
End Sequential.

(** ** The execution-unit provider, the partitioner and [parallel] *)

Section ThreadBackend.
(** [ThreadExecutor::get_num_exec_unit] is declared in [executor.h]; here
    it is the sequence of its answers: [get_num_exec_unit k] is what the
    query numbered [k] (from 0) returns. *)
Variable get_num_exec_unit : nat → Z.

Definition query_num_exec_unit : exec Z :=
  fun q => (S q, Ret (get_num_exec_unit q)).

(** The body of the loop of the partitioner, on [(paritions, iter)]. *)
Definition partitioner_body (chunkSize : Z) (i : Z) (st : list Z * Z)
    : outcome (list Z * Z) :=
  let '(paritions, iter) := st in
  paritions ← vec_write paritions i iter;
  let iter := advance iter (to_ptrdiff_t chunkSize) in
  paritions ← vec_write paritions (to_size_t (i + 1)) iter;
  mret (paritions, iter).

Definition __for_each_partitioner (first sent : Z) : exec (list Z) :=
  numProcessingUnits ← query_num_exec_unit;
  let n := to_size_t (distance first sent) in
  chunkSize ← lift (size_t_div n numProcessingUnits);
  let paritions := replicate (Z.to_nat (to_size_t (n + 1))) value_initialized in
  '(paritions, _) ← lift (for_ne n (partitioner_body chunkSize) (paritions, first));
  paritions ← lift (vec_write paritions n sent);
  mret paritions.

(** A thread is the range its [chunked_f] was started on. *)
Definition thread : Type := Z * Z.

(** [threads.emplace_back(std::thread(chunked_f, partitions[i], partitions[i + 1], f))] *)
Definition spawn_body (partitions : list Z) (i : Z) (threads : list thread)
    : outcome (list thread) :=
  b ← vec_read partitions i;
  e ← vec_read partitions (to_size_t (i + 1));
  mret (threads ++ [(b, e)]).

(** [threads[i].join()]: the thread has run [sequential] on its range; its
    log is added to the logs of the threads joined so far. *)
Definition join_body (fuel : nat) (threads : list thread) (i : Z)
    (logs : list (list Z)) : outcome (list (list Z)) :=
  '(b, e) ← vec_read threads i;
  '(_, log) ← sequential Z.succ fuel b e;
  mret (logs ++ [log]).

(** The threads [parallel] starts, in the order it starts them. *)
Definition spawn (numProcessingUnits : Z) (partitions : list Z) : outcome (list thread) :=
  for_ne numProcessingUnits (spawn_body partitions) [].

Definition join (fuel : nat) (numProcessingUnits : Z) (threads : list thread)
    : outcome (list (list Z)) :=
  for_ne numProcessingUnits (join_body fuel threads) [].

(** [parallel]: the value returned and the log of each thread.  [fuel]
    bounds the walk of every thread. *)
Definition parallel (fuel : nat) (first sent : Z) : exec (Z * list (list Z)) :=
  numProcessingUnits ← query_num_exec_unit;
  partitions ← __for_each_partitioner first sent;
  threads ← lift (spawn numProcessingUnits partitions);
  logs ← lift (join fuel numProcessingUnits threads);
  mret (sent, logs).
End ThreadBackend.

(** ** [__pstl_algorithm::operator()] *)

(** Modelled from the spec: the policy is a caller-supplied intent tag,
    sequential-requested or parallel-requested.  The trait
    [is_parallel_policy] is named in a comment of the source only. *)
Inductive ExPolicy : Set := SequentialRequested | ParallelRequested.

Definition is_parallel_policy (p : ExPolicy) : bool :=
  match p with
  | ParallelRequested => true
  | SequentialRequested => false
  end.

Inductive path : Set := ParallelPath | SequentialPath.

Global Instance path_eq_dec : EqDecision path.
Proof. solve_decision. Defined.

(** The condition of the [if] of [operator()]:
    [true /*std::random_access_iterator<Iter> && is_parallel_policy<ExPolicy>*/]. *)
Definition selected_path (exPolicy : ExPolicy) (random_access_iterator : bool) : path :=
  if true then ParallelPath else SequentialPath.

(** The condition the comment spells out. *)
Definition commented_path (exPolicy : ExPolicy) (random_access_iterator : bool) : path :=
  if random_access_iterator && is_parallel_policy exPolicy
  then ParallelPath else SequentialPath.

Section Dispatcher.
Variable get_num_exec_unit : nat → Z.

(** [operator()] has the return type [auto] and no [return] statement: it
    returns [void], here [tt], whatever the path it calls returns.  The
    logs of the threads that ran [f] are its effect. *)
Definition operator_call (exPolicy : ExPolicy) (random_access_iterator : bool)
    (fuel : nat) (first sent : Z) : exec (unit * list (list Z)) :=
  match selected_path exPolicy random_access_iterator with
  | ParallelPath =>
      '(_, logs) ← parallel get_num_exec_unit fuel first sent;
      mret (tt, logs)
  | SequentialPath =>
      '(_, log) ← lift (sequential Z.succ fuel first sent);
      mret (tt, [log])
  end.
End Dispatcher.

(** The provider of a platform with a fixed number [U] of execution units. *)
Definition constant_provider (U : Z) : nat → Z := fun _ => U.

(** ** Vocabulary of the properties *)

(** A provider that answers [a] to the query numbered 0 and [b] after. *)
Definition two_answers (a b : Z) : nat → Z :=
  fun k => match k with O => a | _ => b end.

(** The number of queries a computation makes when started after [q]. *)
Definition queries_made {A : Type} (m : exec A) (q : nat) : nat := ((m q).1 - q)%nat.

(** What the partitioner returns on a range of length [N = sent - first]
    with chunk size [c]: the [N] positions [first + i * c] and [sent]. *)
Definition boundaries (first sent c : Z) : list Z :=
  ((λ i, first + i * c) <$> seqZ 0 (sent - first)) ++ [sent].

(** The invariant of the loop of the partitioner on a range of length
    [N]: after [k] turns [iter] is [k] chunks after [first] and the first
    [k] entries hold the first [k] multiples of the chunk size. *)
Definition partitioner_inv (first N c : Z) (k : Z) (st : list Z * Z) : Prop :=
  st.2 = first + k * c ∧
  length st.1 = Z.to_nat (N + 1) ∧
  ∀ j : nat, Z.of_nat j < k → st.1 !! j = Some (first + Z.of_nat j * c).

(** [U] consecutive ranges of [c] positions each, from [first] on. *)
Definition chunks (first c U : Z) : list thread :=
  (λ i, (first + i * c, first + (i + 1) * c)) <$> seqZ 0 U.

(** The log of a thread that walked its range to the end. *)
Definition thread_log (t : thread) : list Z := seqZ t.1 (t.2 - t.1).

(** * Properties *)

(** ** Machine integers *)

Lemma to_size_t_id (x : Z) : 0 ≤ x ≤ SIZE_MAX → to_size_t x = x.
Proof. unfold to_size_t, SIZE_MAX. intros Hx. apply Z.mod_small. lia. Qed.

Lemma to_ptrdiff_t_id (x : Z) : 0 ≤ x ≤ PTRDIFF_MAX → to_ptrdiff_t x = x.
Proof.
  unfold to_ptrdiff_t, PTRDIFF_MAX. intros Hx.
  rewrite Z.mod_small; lia.
Qed.

Lemma PTRDIFF_MAX_lt_SIZE_MAX : PTRDIFF_MAX < SIZE_MAX.
Proof. reflexivity. Qed.

(** ** The sequential walk *)

Section SequentialFacts.
Context {Iter : Type} `{EqDecision Iter}.
Variable next : Iter → Iter.

Lemma range_length_0 (sent : Iter) : range_length next sent sent 0.
Proof. split; [reflexivity | constructor]. Qed.

Lemma range_length_S (first sent : Iter) (k : nat) :
  first ≠ sent → range_length next (next first) sent k →
  range_length next first sent (S k).
Proof.
  intros Hne [Hit Hall]. split.
  - by rewrite Nat.iter_succ_r.
  - simpl. by constructor.
Qed.

Lemma range_length_inv_S (first sent : Iter) (k : nat) :
  range_length next first sent (S k) →
  first ≠ sent ∧ range_length next (next first) sent k.
Proof.
  intros [Hit Hall]. rewrite Nat.iter_succ_r in Hit.
  simpl in Hall. inversion Hall; subst. by repeat split.
Qed.

Lemma range_length_inv_0 (first sent : Iter) :
  range_length next first sent 0 → first = sent.
Proof. by intros [Hit _]. Qed.

(** The length of a range is unique. *)
Lemma range_length_unique (first sent : Iter) (k k' : nat) :
  range_length next first sent k → range_length next first sent k' → k = k'.
Proof.
  revert first k'. induction k as [|k IH]; intros first [|k'] H1 H2; try done.
  - apply range_length_inv_0 in H1. apply range_length_inv_S in H2 as [Hne _].
    congruence.
  - apply range_length_inv_0 in H2. apply range_length_inv_S in H1 as [Hne _].
    congruence.
  - apply range_length_inv_S in H1 as [_ H1].
    apply range_length_inv_S in H2 as [_ H2]. f_equal. eauto.
Qed.

(** A reachable sentinel is at a definite distance. *)
Lemma reachable_range_length (first sent : Iter) :
  reachable next first sent → ∃ k, range_length next first sent k.
Proof.
  intros [k Hk]. revert first Hk. induction k as [|k IH]; intros first Hk.
  - simpl in Hk. subst. exists 0%nat. apply range_length_0.
  - rewrite Nat.iter_succ_r in Hk. destruct (IH _ Hk) as [k' Hk'].
    destruct (decide (first = sent)) as [->|Hne].
    + exists 0%nat. apply range_length_0.
    + exists (S k'). by apply range_length_S.
Qed.

Lemma length_walk (k : nat) (first : Iter) : length (walk next k first) = k.
Proof. revert first. induction k; intros; simpl; auto. Qed.

Lemma lookup_walk (k i : nat) (first : Iter) :
  (i < k)%nat → walk next k first !! i = Some (Nat.iter i next first).
Proof.
  revert first i. induction k as [|k IH]; intros first [|i] Hi; try lia; try done.
  simpl walk. rewrite Nat.iter_succ_r. apply IH. lia.
Qed.

(** The loop on a range of length [k], from any log. *)
Lemma sequential_loop_walk (k fuel : nat) (first sent : Iter) (log : list Iter) :
  range_length next first sent k → (k ≤ fuel)%nat →
  sequential_loop next fuel sent (first, log) = Ret (sent, log ++ walk next k first).
Proof.
  revert fuel first log. induction k as [|k IH]; intros fuel first log Hlen Hfuel.
  - apply range_length_inv_0 in Hlen. subst first.
    destruct fuel; simpl; rewrite decide_True by done; by rewrite app_nil_r.
  - apply range_length_inv_S in Hlen as [Hne Hlen].
    destruct fuel as [|fuel]; [lia|].
    simpl. rewrite decide_False by done.
    rewrite (IH fuel (next first) (log ++ [first])) by (done || lia).
    by rewrite <- app_assoc.
Qed.

(** Every turn of the loop brings the sentinel one step nearer. *)
Lemma sequential_step_decreases (sent : Iter) (st st' : Iter * list Iter) (k : nat) :
  range_length next st.1 sent k → sequential_step next sent st = Some st' →
  range_length next st'.1 sent (pred k) ∧ (pred k < k)%nat.
Proof.
  destruct st as [first log]. simpl. intros Hlen Hstep.
  case_decide; [done|]. injection Hstep as <-. simpl.
  destruct k as [|k].
  - by apply range_length_inv_0 in Hlen.
  - apply range_length_inv_S in Hlen as [_ Hlen]. simpl. split; [done | lia].
Qed.
End SequentialFacts.

(** *** Positions *)

Lemma walk_seqZ (k : nat) (first : Z) : walk Z.succ k first = seqZ first (Z.of_nat k).
Proof.
  revert first. induction k as [|k IH]; intros first; [done|].
  rewrite Nat2Z.inj_succ, seqZ_cons by lia. simpl. rewrite IH.
  do 2 f_equal. lia.
Qed.

Lemma iter_succ_Z (k : nat) (first : Z) : Nat.iter k Z.succ first = first + Z.of_nat k.
Proof. induction k as [|k IH]; simpl; [lia | rewrite IH; lia]. Qed.

Lemma range_length_Z (first sent : Z) :
  first ≤ sent → range_length Z.succ first sent (Z.to_nat (sent - first)).
Proof.
  intros Hle. split.
  - rewrite iter_succ_Z. lia.
  - rewrite walk_seqZ. apply Forall_lookup. intros i p Hp.
    apply lookup_seqZ in Hp. lia.
Qed.

(** The walk of a thread over the positions [[b, e)]. *)
Lemma sequential_Z (fuel : nat) (b e : Z) :
  b ≤ e → e - b ≤ Z.of_nat fuel →
  sequential Z.succ fuel b e = Ret (e, seqZ b (e - b)).
Proof.
  intros Hle Hfuel. unfold sequential.
  rewrite (sequential_loop_walk Z.succ (Z.to_nat (e - b))) by (auto using range_length_Z || lia).
  rewrite walk_seqZ. simpl. do 3 f_equal. lia.
Qed.


(** ** Counted loops *)

Section CountedLoop.
Context {S : Type}.
Variable body : Z → S → outcome S.
Variable n : Z.
(** The invariant: [P i s] when the loop is about to test [i != n]. *)
Variable P : Z → S → Prop.

Lemma for_ne_from_inv (fuel : nat) (i : Z) (s : S) :
  n ≤ SIZE_MAX →
  (∀ j t, 0 ≤ j < n → P j t → ∃ t', body j t = Ret t' ∧ P (j + 1) t') →
  0 ≤ i ≤ n → fuel = Z.to_nat (n - i) → P i s →
  ∃ s', for_ne_from fuel i n body s = Ret s' ∧ P n s'.
Proof.
  intros Hn Hbody. revert i s.
  induction fuel as [|fuel IH]; intros i s Hi Hfuel HP.
  - assert (i = n) as -> by lia. exists s. simpl. by rewrite decide_True.
  - simpl. rewrite decide_False by lia.
    destruct (Hbody i s) as (s' & -> & HP'); [lia | done |].
    simpl. rewrite to_size_t_id by lia. apply IH; [lia | lia | done].
Qed.

Lemma for_ne_inv (s : S) :
  0 ≤ n ≤ SIZE_MAX →
  (∀ j t, 0 ≤ j < n → P j t → ∃ t', body j t = Ret t' ∧ P (j + 1) t') →
  P 0 s →
  ∃ s', for_ne n body s = Ret s' ∧ P n s'.
Proof.
  intros Hn Hbody HP. unfold for_ne.
  apply for_ne_from_inv; [lia | done | lia | f_equal; lia | done].
Qed.

(** The fuel [for_ne] gives itself is enough: the loop diverges only if
    its body does. *)
Lemma for_ne_from_total (fuel : nat) (i : Z) (s : S) :
  n ≤ SIZE_MAX →
  (∀ j t, body j t ≠ Fault Diverges) →
  0 ≤ i ≤ n → fuel = Z.to_nat (n - i) →
  for_ne_from fuel i n body s ≠ Fault Diverges.
Proof.
  intros Hn Hbody. revert i s.
  induction fuel as [|fuel IH]; intros i s Hi Hfuel.
  - assert (i = n) as -> by lia. simpl. by rewrite decide_True.
  - simpl. rewrite decide_False by lia.
    destruct (body i s) as [s'|e] eqn:Hb; simpl.
    + rewrite to_size_t_id by lia. apply IH; lia.
    + intros [= ->]. by apply (Hbody i s).
Qed.

Lemma for_ne_total (s : S) :
  0 ≤ n ≤ SIZE_MAX →
  (∀ j t, body j t ≠ Fault Diverges) →
  for_ne n body s ≠ Fault Diverges.
Proof.
  intros Hn Hbody. unfold for_ne.
  apply for_ne_from_total; [lia | done | lia | f_equal; lia].
Qed.

(** The loop stops at the first turn [m] whose body faults. *)
Lemma for_ne_from_fault (m : Z) (e : fault) (fuel : nat) (i : Z) (s : S) :
  m < n → n ≤ SIZE_MAX →
  (∀ j t, 0 ≤ j < m → P j t → ∃ t', body j t = Ret t' ∧ P (j + 1) t') →
  (∀ t, P m t → body m t = Fault e) →
  0 ≤ i ≤ m → (Z.to_nat (m - i) < fuel)%nat → P i s →
  for_ne_from fuel i n body s = Fault e.
Proof.
  intros Hm Hn Hbody Hfault. revert i s.
  induction fuel as [|fuel IH]; intros i s Hi Hfuel HP; [lia|].
  simpl. rewrite decide_False by lia.
  destruct (decide (i = m)) as [->|Hne].
  - by rewrite Hfault.
  - destruct (Hbody i s) as (s' & -> & HP'); [lia | done |].
    simpl. rewrite to_size_t_id by lia. apply IH; [lia | lia | done].
Qed.

Lemma for_ne_fault (m : Z) (e : fault) (s : S) :
  0 ≤ m < n → n ≤ SIZE_MAX →
  (∀ j t, 0 ≤ j < m → P j t → ∃ t', body j t = Ret t' ∧ P (j + 1) t') →
  (∀ t, P m t → body m t = Fault e) →
  P 0 s →
  for_ne n body s = Fault e.
Proof.
  intros Hm Hn Hbody Hfault HP. unfold for_ne.
  apply (for_ne_from_fault m); [lia | done | done | done | lia | lia | done].
Qed.
End CountedLoop.

(** ** The partitioner *)


Lemma length_boundaries (first sent c : Z) :
  first ≤ sent →
  length (boundaries first sent c) = Z.to_nat (sent - first + 1).
Proof.
  intros Hle. unfold boundaries.
  rewrite length_app, length_fmap, length_seqZ. simpl. lia.
Qed.

Lemma lookup_boundaries_lt (first sent c : Z) (i : nat) :
  Z.of_nat i < sent - first →
  boundaries first sent c !! i = Some (first + Z.of_nat i * c).
Proof.
  intros Hi. unfold boundaries.
  rewrite lookup_app_l by (rewrite length_fmap, length_seqZ; lia).
  rewrite list_lookup_fmap, lookup_seqZ_lt by lia. done.
Qed.

Lemma lookup_boundaries_last (first sent c : Z) :
  first ≤ sent →
  boundaries first sent c !! Z.to_nat (sent - first) = Some sent.
Proof.
  intros Hle. unfold boundaries.
  rewrite lookup_app_r by (rewrite length_fmap, length_seqZ; lia).
  rewrite length_fmap, length_seqZ, Nat.sub_diag. done.
Qed.

Lemma lookup_boundaries_ge (first sent c : Z) (i : nat) :
  first ≤ sent → sent - first < Z.of_nat i →
  boundaries first sent c !! i = None.
Proof.
  intros Hle Hi. apply lookup_ge_None. rewrite length_boundaries by done. lia.
Qed.

Section PartitionerLoop.
Variables (first N c : Z).
Hypothesis HN : 0 ≤ N ≤ PTRDIFF_MAX.
Hypothesis Hc : 0 ≤ c ≤ PTRDIFF_MAX.


Lemma partitioner_body_inv (j : Z) (st : list Z * Z) :
  0 ≤ j < N → partitioner_inv first N c j st →
  ∃ st', partitioner_body c j st = Ret st' ∧ partitioner_inv first N c (j + 1) st'.
Proof.
  destruct st as [v iter]. intros Hj (Hiter & Hlen & Hlook). simpl in *.
  pose proof PTRDIFF_MAX_lt_SIZE_MAX as Hmax.
  unfold partitioner_body, vec_write.
  rewrite decide_True by lia. simpl.
  rewrite length_insert, to_size_t_id, decide_True by lia. simpl.
  eexists. split; [reflexivity|].
  rewrite to_ptrdiff_t_id by done. unfold advance.
  split; [simpl; lia|]. split; [simpl; by rewrite !length_insert|].
  simpl. intros i Hi.
  rewrite list_lookup_insert_ne by lia.
  destruct (decide (i = Z.to_nat j)) as [->|Hne].
  - rewrite list_lookup_insert_eq by lia. f_equal. lia.
  - rewrite list_lookup_insert_ne by done. apply Hlook. lia.
Qed.

Lemma partitioner_loop :
  ∃ st, for_ne N (partitioner_body c)
          (replicate (Z.to_nat (N + 1)) value_initialized, first) = Ret st
        ∧ partitioner_inv first N c N st.
Proof.
  pose proof PTRDIFF_MAX_lt_SIZE_MAX as Hmax.
  apply for_ne_inv; [lia | apply partitioner_body_inv |].
  split; [simpl; lia|]. split; [simpl; by rewrite length_replicate|].
  intros j Hj. lia.
Qed.
End PartitionerLoop.

(** The partitioner on a well-formed range: one query of the provider, and
    [sent - first + 1] boundaries, whatever the number of units. *)
Lemma partitioner_boundaries (provider : nat → Z) (q : nat) (first sent : Z) :
  1 ≤ provider q → first ≤ sent → sent - first ≤ PTRDIFF_MAX →
  __for_each_partitioner provider first sent q
  = (S q, Ret (boundaries first sent ((sent - first) / provider q))).
Proof.
  intros HU Hle Hmax.
  pose proof PTRDIFF_MAX_lt_SIZE_MAX as Hlt.
  set (N := sent - first). set (c := N / provider q).
  assert (0 ≤ c ≤ N) as Hc.
  { split; [apply Z.div_pos; lia|]. apply Z.div_le_upper_bound; nia. }
  destruct (partitioner_loop first N c) as ([v iter] & Hloop & Hiter & Hlen & Hlook);
    [lia | lia |]. simpl in *.
  unfold __for_each_partitioner, mbind, exec_bind, query_num_exec_unit, lift, distance.
  fold N. rewrite (to_size_t_id N), (to_size_t_id (N + 1)) by lia.
  unfold size_t_div. rewrite decide_False by lia. fold c.
  rewrite Hloop. unfold vec_write. rewrite decide_True by lia.
  unfold mret, exec_ret. do 2 f_equal.
  apply (list_eq_same_length _ _ (Z.to_nat (N + 1))).
  - by apply length_boundaries.
  - by rewrite length_insert.
  - intros i x y Hi Hx Hy.
    destruct (decide (i = Z.to_nat N)) as [->|Hne].
    + rewrite list_lookup_insert_eq in Hx by lia.
      unfold N in Hy. rewrite lookup_boundaries_last in Hy by done. congruence.
    + rewrite list_lookup_insert_ne in Hx by done.
      rewrite Hlook in Hx by lia.
      rewrite lookup_boundaries_lt in Hy by lia. congruence.
Qed.

(** ** The threads of [parallel] *)


Lemma seqZ_snoc (m k : Z) : 0 ≤ k → seqZ m (k + 1) = seqZ m k ++ [m + k].
Proof. intros Hk. by rewrite seqZ_app by lia. Qed.

Lemma chunks_snoc (first c k : Z) :
  0 ≤ k → chunks first c (k + 1) = chunks first c k ++ [(first + k * c, first + (k + 1) * c)].
Proof.
  intros Hk. unfold chunks. rewrite seqZ_snoc, fmap_app by done. simpl.
  by rewrite Z.add_0_l.
Qed.

Lemma length_chunks (first c U : Z) : length (chunks first c U) = Z.to_nat U.
Proof. unfold chunks. by rewrite length_fmap, length_seqZ. Qed.

Lemma lookup_chunks (first c U : Z) (i : nat) :
  Z.of_nat i < U →
  chunks first c U !! i
  = Some (first + Z.of_nat i * c, first + (Z.of_nat i + 1) * c).
Proof.
  intros Hi. unfold chunks. rewrite list_lookup_fmap, lookup_seqZ_lt by done.
  simpl. by rewrite Z.add_0_l.
Qed.

(** The logs of the chunks, put end to end, are the positions from [first]
    up to the end of the last chunk. *)
Lemma concat_thread_log_chunks (first c : Z) (u : nat) :
  0 ≤ c →
  concat (thread_log <$> chunks first c (Z.of_nat u)) = seqZ first (Z.of_nat u * c).
Proof.
  intros Hc. induction u as [|u IH]; [done|].
  rewrite Nat2Z.inj_succ, <- Z.add_1_r, chunks_snoc by lia.
  rewrite fmap_app, concat_app, IH.
  replace ((Z.of_nat u + 1) * c) with (Z.of_nat u * c + c) by lia.
  rewrite (seqZ_app first) by lia. f_equal.
  unfold thread_log. cbn [fmap list_fmap concat fst snd]. rewrite app_nil_r.
  f_equal. lia.
Qed.

Lemma concat_thread_log_chunks_Z (first c U : Z) :
  0 ≤ c → 0 ≤ U →
  concat (thread_log <$> chunks first c U) = seqZ first (U * c).
Proof.
  intros Hc HU. rewrite <- (Z2Nat.id U) by done.
  by apply concat_thread_log_chunks.
Qed.

Section Spawn.
Variables (first sent : Z).
Hypothesis Hle : first ≤ sent.
Hypothesis Hmax : sent - first ≤ PTRDIFF_MAX.

(** Reading boundary [j]: inside the vector, it is [j] chunks after
    [first] as long as [j] is not the last index or the chunk size is 1. *)
Lemma vec_read_boundaries (c j : Z) :
  0 ≤ j ≤ sent - first → j < sent - first ∨ c = 1 →
  vec_read (boundaries first sent c) j = Ret (first + j * c).
Proof.
  intros Hj Hc. unfold vec_read.
  destruct (decide (j < sent - first)) as [Hlt|Hge].
  - rewrite lookup_boundaries_lt by lia. by rewrite Z2Nat.id by lia.
  - assert (j = sent - first) as -> by lia.
    rewrite lookup_boundaries_last by done. f_equal.
    destruct Hc as [Hc| ->]; lia.
Qed.

Lemma vec_read_boundaries_is_Ret (c j : Z) :
  0 ≤ j ≤ sent - first → ∃ p, vec_read (boundaries first sent c) j = Ret p.
Proof.
  intros Hj. unfold vec_read.
  destruct (decide (j < sent - first)) as [Hlt|Hge].
  - rewrite lookup_boundaries_lt by lia. eauto.
  - assert (j = sent - first) as -> by lia.
    rewrite lookup_boundaries_last by done. eauto.
Qed.

Lemma vec_read_boundaries_out_of_range (c j : Z) :
  sent - first < j → vec_read (boundaries first sent c) j = Fault OutOfRange.
Proof.
  intros Hj. unfold vec_read. by rewrite lookup_boundaries_ge by lia.
Qed.

(** With no more workers than elements every read is in range, and the
    workers get the first [Uw] chunks. *)
Lemma spawn_chunks (c Uw : Z) :
  0 ≤ Uw ≤ sent - first → Uw < sent - first ∨ c = 1 →
  spawn Uw (boundaries first sent c) = Ret (chunks first c Uw).
Proof.
  intros HU Hc. pose proof PTRDIFF_MAX_lt_SIZE_MAX as Hlt.
  destruct (for_ne_inv (spawn_body (boundaries first sent c)) Uw
              (λ k threads, threads = chunks first c k) []) as (ts & Hts & ->);
    [lia | | done | done].
  intros j ts Hj ->. eexists. split; [|symmetry; apply chunks_snoc; lia].
  unfold spawn_body. rewrite to_size_t_id by lia.
  rewrite !vec_read_boundaries by lia. done.
Qed.

(** With more workers than elements the read of [partitions[N + 1]], in
    the turn [i = N], is out of range. *)
Lemma spawn_out_of_range (c Uw : Z) :
  sent - first < Uw ≤ SIZE_MAX →
  spawn Uw (boundaries first sent c) = Fault OutOfRange.
Proof.
  intros HU. unfold spawn.
  apply (for_ne_fault _ _ (λ _ _, True) (sent - first)); [lia | lia | | | done].
  - intros j ts Hj _. unfold spawn_body. rewrite to_size_t_id by lia.
    destruct (vec_read_boundaries_is_Ret c j) as [b ->]; [lia|].
    destruct (vec_read_boundaries_is_Ret c (j + 1)) as [e ->]; [lia|].
    simpl. eauto.
  - intros ts _. unfold spawn_body. rewrite to_size_t_id by lia.
    destruct (vec_read_boundaries_is_Ret c (sent - first)) as [b ->]; [lia|].
    by rewrite vec_read_boundaries_out_of_range by lia.
Qed.
End Spawn.

(** Joining [U] threads that all walk forward within the fuel. *)
Lemma join_logs (fuel : nat) (U : Z) (threads : list thread) :
  0 ≤ U ≤ SIZE_MAX → length threads = Z.to_nat U →
  Forall (λ t : thread, t.1 ≤ t.2 ∧ t.2 - t.1 ≤ Z.of_nat fuel) threads →
  join fuel U threads = Ret (thread_log <$> threads).
Proof.
  intros HU Hlen Hall.
  destruct (for_ne_inv (join_body fuel threads) U
              (λ k logs, logs = thread_log <$> take (Z.to_nat k) threads) [])
    as (logs & Hlogs & ->); [done | | done |].
  - intros j logs Hj ->.
    destruct (lookup_lt_is_Some_2 threads (Z.to_nat j)) as [[b e] Hbe]; [lia|].
    eexists. split.
    + unfold join_body, vec_read. rewrite Hbe. simpl.
      rewrite Forall_lookup in Hall. destruct (Hall _ _ Hbe) as [H1 H2]. simpl in *.
      rewrite sequential_Z by done. simpl. reflexivity.
    + rewrite Z2Nat.inj_add, Nat.add_1_r by lia.
      rewrite (take_S_r _ _ _ Hbe), fmap_app. done.
  - unfold join. rewrite Hlogs. by rewrite take_ge by lia.
Qed.

(** ** [parallel] *)

Lemma Forall_chunks_forward (first c U : Z) (fuel : nat) :
  0 ≤ c ≤ Z.of_nat fuel →
  Forall (λ t : thread, t.1 ≤ t.2 ∧ t.2 - t.1 ≤ Z.of_nat fuel) (chunks first c U).
Proof.
  intros Hc. unfold chunks. apply Forall_fmap, Forall_lookup.
  intros i k _. simpl. lia.
Qed.

Lemma Forall_chunks_size (first c U : Z) :
  Forall (λ t : thread, t.2 - t.1 = c) (chunks first c U).
Proof.
  unfold chunks. apply Forall_fmap, Forall_lookup. intros i k _. simpl. lia.
Qed.

Section Parallel.
Variable provider : nat → Z.
Variables (first sent : Z) (q : nat).
Hypothesis Hle : first ≤ sent.
Hypothesis Hmax : sent - first ≤ PTRDIFF_MAX.
(** The answer the partitioner gets. *)
Hypothesis HUc : 1 ≤ provider (S q).

Let N : Z := sent - first.
Let Uw : Z := provider q.
Let c : Z := N / provider (S q).

Lemma chunk_size_bounds : 0 ≤ c ≤ N.
Proof.
  unfold c, N. split; [apply Z.div_pos; lia|].
  apply Z.div_le_upper_bound; nia.
Qed.

(** No more workers than elements: [parallel] returns [sent] after two
    queries, and worker [i] has walked chunk [i]. *)
Lemma parallel_within (fuel : nat) :
  0 ≤ Uw ≤ N → Uw < N ∨ c = 1 → c ≤ Z.of_nat fuel →
  parallel provider fuel first sent q
  = (S (S q), Ret (sent, thread_log <$> chunks first c Uw)).
Proof.
  intros HU Hc Hfuel. pose proof chunk_size_bounds as Hcb.
  pose proof PTRDIFF_MAX_lt_SIZE_MAX as Hlt.
  unfold parallel, mbind, exec_bind, query_num_exec_unit.
  rewrite partitioner_boundaries by done. fold N c Uw.
  unfold lift. rewrite spawn_chunks by done.
  rewrite join_logs; [done | unfold N in *; lia | apply length_chunks |].
  apply Forall_chunks_forward. lia.
Qed.

(** More workers than elements: the spawning loop indexes the vector of
    boundaries out of range. *)
Lemma parallel_out_of_range (fuel : nat) :
  N < Uw ≤ SIZE_MAX →
  parallel provider fuel first sent q = (S (S q), Fault OutOfRange).
Proof.
  intros HU.
  unfold parallel, mbind, exec_bind, query_num_exec_unit.
  rewrite partitioner_boundaries by done. fold N c Uw.
  unfold lift. by rewrite spawn_out_of_range by done.
Qed.
End Parallel.

(** [parallel] asks the provider twice, faults or not. *)
Lemma parallel_queries (provider : nat → Z) (fuel : nat) (first sent : Z) (q : nat) :
  (parallel provider fuel first sent q).1 = S (S q).
Proof.
  unfold parallel, __for_each_partitioner, mbind, exec_bind, query_num_exec_unit, lift.
  destruct (size_t_div _ _); [|done].
  destruct (for_ne _ _ _) as [[v iter]|]; [|done].
  destruct (vec_write _ _ _); [|done].
  unfold mret, exec_ret.
  destruct (spawn _ _); [|done].
  by destruct (join _ _ _).
Qed.

(** [operator()] is [parallel] with its result dropped, for every policy. *)
Lemma operator_call_parallel (provider : nat → Z) (exPolicy : ExPolicy)
    (random_access_iterator : bool) (fuel : nat) (first sent : Z) (q : nat) :
  operator_call provider exPolicy random_access_iterator fuel first sent q
  = match parallel provider fuel first sent q with
    | (q', Ret (_, logs)) => (q', Ret (tt, logs))
    | (q', Fault e) => (q', Fault e)
    end.
Proof.
  unfold operator_call, selected_path, mbind, exec_bind.
  destruct (parallel _ _ _ _ _) as [q' [[r logs]|e]]; done.
Qed.

(** * The properties of the specification *)

(** C8: on a range [[first, sent)] of length [N], [sequential] calls [f]
    exactly [N] times, on [first], [++first], ... in this order (call [i]
    is on the iterator [i] steps after [first]), and returns an iterator
    equal to [sent]. *)
Theorem sequential_visits_range {Iter : Type} `{EqDecision Iter}
    (next : Iter → Iter) (fuel N : nat) (first sent : Iter) :
  range_length next first sent N → (N ≤ fuel)%nat →
  ∃ log, sequential next fuel first sent = Ret (sent, log)
    ∧ length log = N
    ∧ ∀ i, (i < N)%nat → log !! i = Some (Nat.iter i next first).
Proof.
  intros Hlen Hfuel. exists (walk next N first). split; [|split].
  - unfold sequential. by rewrite (sequential_loop_walk next N).
  - apply length_walk.
  - intros i Hi. by apply lookup_walk.
Qed.

Lemma sequential_visits_range_witness :
  range_length Z.succ 2 5 3 ∧ (3 ≤ 4)%nat ∧
  ∃ log, sequential Z.succ 4 2 5 = Ret (5, log)
    ∧ length log = 3%nat
    ∧ ∀ i, (i < 3)%nat → log !! i = Some (Nat.iter i Z.succ 2).
Proof.
  assert (range_length Z.succ 2 5 3) as Hlen.
  { split; [reflexivity | repeat constructor; discriminate]. }
  split; [exact Hlen|]. split; [lia|].
  apply (sequential_visits_range Z.succ 4 3 2 5 Hlen). lia.
Defined.

(** C10: when [sent] is reachable from [first] by finitely many single
    steps, the range has a length [N], a natural number; [sequential]
    returns with any fuel of at least [N]; and every turn of its loop
    takes the remaining distance to [sent] from [k] to [k - 1 < k]. *)
Theorem sequential_terminates {Iter : Type} `{EqDecision Iter}
    (next : Iter → Iter) (first sent : Iter) :
  reachable next first sent →
  ∃ N : nat,
    range_length next first sent N
    ∧ (∀ fuel, (N ≤ fuel)%nat → ∃ r, sequential next fuel first sent = Ret r)
    ∧ (∀ st st' k,
         range_length next st.1 sent k →
         sequential_step next sent st = Some st' →
         range_length next st'.1 sent (pred k) ∧ (pred k < k)%nat).
Proof.
  intros Hreach. destruct (reachable_range_length next _ _ Hreach) as [N HN].
  exists N. split; [done|]. split.
  - intros fuel Hfuel. eexists. unfold sequential.
    by rewrite (sequential_loop_walk next N).
  - intros st st' k. apply sequential_step_decreases.
Qed.

Lemma sequential_terminates_witness :
  reachable Z.succ 2 5 ∧
  ∃ N : nat,
    range_length Z.succ 2 5 N
    ∧ (∀ fuel, (N ≤ fuel)%nat → ∃ r, sequential Z.succ fuel 2 5 = Ret r)
    ∧ (∀ st st' k,
         range_length Z.succ st.1 5 k →
         sequential_step Z.succ 5 st = Some st' →
         range_length Z.succ st'.1 5 (pred k) ∧ (pred k < k)%nat).
Proof.
  assert (reachable Z.succ 2 5) as Hreach by (exists 3%nat; reflexivity).
  split; [exact Hreach|]. exact (sequential_terminates Z.succ 2 5 Hreach).
Defined.

(** C5: on a range of length [N] the partitioner computes the chunk size
    [N / U] but returns [N + 1] boundaries, not [U + 1]: it advances [N]
    times, boundary [i < N] is [i] chunks after [first], and the boundary
    forced to [sent] is the one at index [N]. *)
Theorem partitioner_returns_N_plus_1 (U : Z) (first sent : Z) (q : nat) :
  1 ≤ U → first ≤ sent → sent - first ≤ PTRDIFF_MAX →
  ∃ partitions,
    __for_each_partitioner (constant_provider U) first sent q = (S q, Ret partitions)
    ∧ length partitions = Z.to_nat (sent - first + 1)
    ∧ (∀ i : nat, Z.of_nat i < sent - first →
         partitions !! i = Some (first + Z.of_nat i * ((sent - first) / U)))
    ∧ partitions !! Z.to_nat (sent - first) = Some sent.
Proof.
  intros HU Hle Hmax. eexists. split; [by apply partitioner_boundaries|].
  unfold constant_provider. split; [by apply length_boundaries|]. split.
  - intros i Hi. by apply lookup_boundaries_lt.
  - by apply lookup_boundaries_last.
Qed.

Lemma partitioner_returns_N_plus_1_witness :
  ∃ partitions,
    __for_each_partitioner (constant_provider 3) 0 7 0%nat = (1%nat, Ret partitions)
    ∧ length partitions = 8%nat
    ∧ (∀ i : nat, Z.of_nat i < 7 → partitions !! i = Some (0 + Z.of_nat i * 2))
    ∧ partitions !! 7%nat = Some 7.
Proof.
  apply (partitioner_returns_N_plus_1 3 0 7 0); [lia | lia | by vm_compute].
Defined.

(** C2: with [1 <= U <= N] the threads started by [parallel] are the first
    [U] chunks of [N / U] positions; the last boundary consumed is
    [sent - N mod U], short of [sent] unless [U] divides [N]. *)
Theorem consumed_partitions_stop_short (U : Z) (first sent : Z) (q : nat) :
  first ≤ sent → sent - first ≤ PTRDIFF_MAX → 1 ≤ U ≤ sent - first →
  ∃ partitions threads,
    __for_each_partitioner (constant_provider U) first sent q = (S q, Ret partitions)
    ∧ spawn U partitions = Ret threads
    ∧ threads = chunks first ((sent - first) / U) U
    ∧ (∃ b, threads !! Z.to_nat (U - 1) = Some (b, sent - (sent - first) mod U)).
Proof.
  intros Hle Hmax HU. do 2 eexists.
  split; [apply partitioner_boundaries; unfold constant_provider; lia|].
  unfold constant_provider. split; [|split; [reflexivity|]].
  - apply spawn_chunks; [done | done | lia |].
    destruct (decide (U = sent - first)) as [->|]; [right | left; lia].
    apply Z.div_same. lia.
  - eexists. rewrite lookup_chunks by lia. do 2 f_equal.
    rewrite Z2Nat.id by lia.
    pose proof (Z.div_mod (sent - first) U ltac:(lia)). lia.
Qed.

Lemma consumed_partitions_stop_short_witness :
  ∃ partitions threads,
    __for_each_partitioner (constant_provider 3) 0 7 0%nat = (1%nat, Ret partitions)
    ∧ spawn 3 partitions = Ret threads
    ∧ threads = [(0, 2); (2, 4); (4, 6)]
    ∧ (∃ b, threads !! 2%nat = Some (b, 6)).
Proof.
  apply (consumed_partitions_stop_short 3 0 7 0); [lia | by vm_compute | lia].
Defined.

(** C3: with [N = qU + r] and [1 <= U <= N], each of the [U] partitions
    consumed by [parallel], the final one too, has exactly [q] elements. *)
Theorem consumed_partitions_all_of_chunk_size (U : Z) (first sent : Z) (q : nat) :
  first ≤ sent → sent - first ≤ PTRDIFF_MAX → 1 ≤ U ≤ sent - first →
  ∃ partitions threads,
    __for_each_partitioner (constant_provider U) first sent q = (S q, Ret partitions)
    ∧ spawn U partitions = Ret threads
    ∧ length threads = Z.to_nat U
    ∧ Forall (λ t : thread, t.2 - t.1 = (sent - first) / U) threads.
Proof.
  intros Hle Hmax HU. do 2 eexists.
  split; [apply partitioner_boundaries; unfold constant_provider; lia|].
  unfold constant_provider. split; [|split].
  - apply spawn_chunks; [done | done | lia |].
    destruct (decide (U = sent - first)) as [->|]; [right | left; lia].
    apply Z.div_same. lia.
  - apply length_chunks.
  - apply Forall_chunks_size.
Qed.

Lemma consumed_partitions_all_of_chunk_size_witness :
  ∃ partitions threads,
    __for_each_partitioner (constant_provider 3) 0 7 0%nat = (1%nat, Ret partitions)
    ∧ spawn 3 partitions = Ret threads
    ∧ length threads = 3%nat
    ∧ Forall (λ t : thread, t.2 - t.1 = 2) threads.
Proof.
  apply (consumed_partitions_all_of_chunk_size 3 0 7 0); [lia | by vm_compute | lia].
Defined.

(** C1: with [1 <= U <= N], [parallel] runs [U] threads whose logs, put end
    to end, are the positions of the range without its last [N mod U]:
    those elements are never passed to [f]. *)
Theorem parallel_skips_remainder (U : Z) (fuel : nat) (first sent : Z) (q : nat) :
  first ≤ sent → sent - first ≤ PTRDIFF_MAX → 1 ≤ U ≤ sent - first →
  (sent - first) / U ≤ Z.of_nat fuel →
  ∃ logs,
    parallel (constant_provider U) fuel first sent q = (S (S q), Ret (sent, logs))
    ∧ length logs = Z.to_nat U
    ∧ concat logs = seqZ first (sent - first - (sent - first) mod U).
Proof.
  intros Hle Hmax HU Hfuel. eexists. split; [|split].
  - apply parallel_within; unfold constant_provider; [done | done | lia | lia | | done].
    destruct (decide (U = sent - first)) as [->|]; [right | left; lia].
    apply Z.div_same. lia.
  - unfold constant_provider. by rewrite length_fmap, length_chunks.
  - unfold constant_provider.
    rewrite concat_thread_log_chunks_Z by (lia || apply Z.div_pos; lia).
    f_equal.
    pose proof (Z.div_mod (sent - first) U ltac:(lia)). lia.
Qed.

Lemma parallel_skips_remainder_witness :
  ∃ logs,
    parallel (constant_provider 3) 2 0 7 0%nat = (2%nat, Ret (7, logs))
    ∧ length logs = 3%nat
    ∧ concat logs = [0; 1; 2; 3; 4; 5].
Proof.
  apply (parallel_skips_remainder 3 2 0 7 0); [lia | by vm_compute | lia | by vm_compute].
Defined.

(** C4: with more execution units than elements, the empty range included,
    [parallel] does not complete: after its two queries it reads the vector
    of boundaries out of range. *)
Theorem parallel_more_units_than_elements (U : Z) (fuel : nat) (first sent : Z) (q : nat) :
  first ≤ sent → sent - first ≤ PTRDIFF_MAX → sent - first < U ≤ SIZE_MAX →
  parallel (constant_provider U) fuel first sent q = (S (S q), Fault OutOfRange).
Proof.
  intros Hle Hmax HU. apply parallel_out_of_range; unfold constant_provider; try done. lia.
Qed.

Lemma parallel_more_units_than_elements_witness :
  parallel (constant_provider 1) 0 0 0 0%nat = (2%nat, Fault OutOfRange)
  ∧ parallel (constant_provider 10) 5 0 5 0%nat = (2%nat, Fault OutOfRange).
Proof.
  split.
  - apply (parallel_more_units_than_elements 1 0 0 0 0); [lia | by vm_compute | by vm_compute].
  - apply (parallel_more_units_than_elements 10 5 0 5 0); [lia | by vm_compute | by vm_compute].
Defined.

(** C9, as stated, fails: one call of [parallel] asks the provider twice. *)
Lemma parallel_queries_not_once :
  queries_made (parallel (constant_provider 2) 2 0 4) 0 ≠ 1%nat.
Proof. by vm_compute. Qed.

(** C9, amended: one call of [parallel] asks the provider exactly twice,
    first in [parallel] itself and then in the partitioner.  The first
    answer [Uw] is the number of threads started and the second answer [Uc]
    gives the chunk size [N / Uc]: thread [i] walks the [N / Uc] positions
    of chunk [i].  The two uses see one value only when both answers agree. *)
Theorem parallel_queries_provider_twice (provider : nat → Z) (fuel : nat)
    (first sent : Z) (q : nat) :
  first ≤ sent → sent - first ≤ PTRDIFF_MAX →
  1 ≤ provider (S q) →
  0 ≤ provider q ≤ sent - first →
  provider q < sent - first ∨ (sent - first) / provider (S q) = 1 →
  (sent - first) / provider (S q) ≤ Z.of_nat fuel →
  queries_made (parallel provider fuel first sent) q = 2%nat
  ∧ (parallel provider fuel first sent q).2
    = Ret (sent, thread_log <$> chunks first ((sent - first) / provider (S q)) (provider q)).
Proof.
  intros Hle Hmax HUc HUw Hc Hfuel. unfold queries_made.
  rewrite parallel_within by done. simpl. split; [lia | done].
Qed.

Lemma parallel_queries_provider_twice_witness :
  queries_made (parallel (two_answers 2 4) 2 0 8) 0 = 2%nat
  ∧ (parallel (two_answers 2 4) 2 0 8 0%nat).2 = Ret (8, [[0; 1]; [2; 3]]).
Proof.
  apply (parallel_queries_provider_twice (two_answers 2 4) 2 0 8 0);
    [lia | by vm_compute | by vm_compute | by vm_compute
    | left; by vm_compute | by vm_compute].
Defined.

(** C6: [operator()] does not return [sent].  Where [parallel] returns
    [sent] (here 4), [operator()] drops it and returns [void]; and on the
    empty range with one execution unit neither returns: the vector of
    boundaries is read out of range. *)
Theorem operator_call_returns_void :
  parallel (constant_provider 2) 2 0 4 0%nat = (2%nat, Ret (4, [[0; 1]; [2; 3]]))
  ∧ operator_call (constant_provider 2) ParallelRequested true 2 0 4 0%nat
    = (2%nat, Ret (tt, [[0; 1]; [2; 3]]))
  ∧ operator_call (constant_provider 1) ParallelRequested true 0 0 0 0%nat
    = (2%nat, Fault OutOfRange).
Proof. by vm_compute. Qed.

(** C7: [operator()] takes the parallel path for every policy and every
    iterator category.  Under a sequential request, on forward iterators,
    where the condition of the comment selects the sequential path, it
    asks the provider and runs two threads. *)
Theorem sequential_request_runs_parallel :
  (∀ exPolicy random_access_iterator,
     selected_path exPolicy random_access_iterator = ParallelPath)
  ∧ commented_path SequentialRequested false = SequentialPath
  ∧ operator_call (constant_provider 2) SequentialRequested false 4 0 4 0%nat
    = (2%nat, Ret (tt, [[0; 1]; [2; 3]])).
Proof. split; [done | by vm_compute]. Qed.


(** * Further properties of the code *)

(** ** [sequential] *)

Section SequentialMore.
Context {Iter : Type} `{EqDecision Iter}.
Variable next : Iter → Iter.

Lemma walk_app (k1 k2 : nat) (a : Iter) :
  walk next (k1 + k2) a = walk next k1 a ++ walk next k2 (Nat.iter k1 next a).
Proof.
  revert a. induction k1 as [|k1 IH]; intros a; [done|].
  rewrite Nat.iter_succ_r. simpl. by rewrite IH.
Qed.

Lemma iter_app (k1 k2 : nat) (a : Iter) :
  Nat.iter (k1 + k2) next a = Nat.iter k2 next (Nat.iter k1 next a).
Proof. by rewrite Nat.add_comm, Nat.iter_add. Qed.

(** A run of the loop that returns has walked, from [first], a range that
    ends at the iterator it returns. *)
Lemma sequential_loop_returns (fuel : nat) (sent first r : Iter) (log log' : list Iter) :
  sequential_loop next fuel sent (first, log) = Ret (r, log') →
  r = sent ∧ ∃ k, log' = log ++ walk next k first ∧ range_length next first sent k.
Proof.
  revert first log. induction fuel as [|fuel IH]; intros first log; simpl;
    case_decide as Heq; try done.
  - intros [= <- <-]. split; [done|]. exists 0%nat. subst first.
    split; [by rewrite app_nil_r | apply range_length_0].
  - intros [= <- <-]. split; [done|]. exists 0%nat. subst first.
    split; [by rewrite app_nil_r | apply range_length_0].
  - intros Hrun. destruct (IH _ _ Hrun) as (-> & k & -> & Hlen).
    split; [done|]. exists (S k). split; [by rewrite <- app_assoc|].
    by apply range_length_S.
Qed.
End SequentialMore.

(** X2: whenever [sequential] returns, what it returns is [sent], the
    number of calls of [f] is the length of the range [[first, sent)], and
    [f] was never called on [sent] itself. *)
Theorem sequential_returns_only_at_sent {Iter : Type} `{EqDecision Iter}
    (next : Iter → Iter) (fuel : nat) (first sent r : Iter) (log : list Iter) :
  sequential next fuel first sent = Ret (r, log) →
  r = sent
  ∧ range_length next first sent (length log)
  ∧ Forall (λ p, p ≠ sent) log.
Proof.
  unfold sequential. intros Hrun.
  destruct (sequential_loop_returns next _ _ _ _ _ _ Hrun) as (-> & k & -> & Hlen).
  simpl. rewrite length_walk. split; [done|]. split; [done|]. apply Hlen.
Qed.

Lemma sequential_returns_only_at_sent_witness :
  sequential Z.succ 5 2 5 = Ret (5, [2; 3; 4])
  ∧ 5 = 5
  ∧ range_length Z.succ 2 5 3
  ∧ Forall (λ p, p ≠ 5) [2; 3; 4].
Proof.
  assert (sequential Z.succ 5 2 5 = Ret (5, [2; 3; 4])) as Hrun by reflexivity.
  split; [exact Hrun|].
  exact (sequential_returns_only_at_sent Z.succ 5 2 5 5 [2; 3; 4] Hrun).
Defined.



(** X4: walking [[a, b)] and then [[b, c)] calls [f] as walking [[a, c)]
    does, provided [c] is not met before [b]: the log of the whole range is
    the log of the first part followed by the log of the second. *)
Theorem sequential_concatenates {Iter : Type} `{EqDecision Iter}
    (next : Iter → Iter) (fuel k1 k2 : nat) (a b c : Iter) :
  range_length next a b k1 → range_length next b c k2 →
  Forall (λ p, p ≠ c) (walk next k1 a) →
  (k1 + k2 ≤ fuel)%nat →
  ∃ l1 l2,
    sequential next fuel a b = Ret (b, l1)
    ∧ sequential next fuel b c = Ret (c, l2)
    ∧ sequential next fuel a c = Ret (c, l1 ++ l2).
Proof.
  intros Hab Hbc Hc Hfuel.
  exists (walk next k1 a), (walk next k2 b). unfold sequential.
  rewrite (sequential_loop_walk next k1), (sequential_loop_walk next k2) by (done || lia).
  split; [done|]. split; [done|].
  assert (range_length next a c (k1 + k2)) as Hac.
  { destruct Hab as [Hb _], Hbc as [Hcc Hall]. split.
    - by rewrite iter_app, Hb.
    - rewrite walk_app, Hb. by apply Forall_app. }
  rewrite (sequential_loop_walk next (k1 + k2)) by done.
  rewrite walk_app. by destruct Hab as [-> _].
Qed.

Lemma sequential_concatenates_witness :
  ∃ l1 l2,
    sequential Z.succ 5 0 2 = Ret (2, l1)
    ∧ sequential Z.succ 5 2 5 = Ret (5, l2)
    ∧ sequential Z.succ 5 0 5 = Ret (5, l1 ++ l2).
Proof.
  apply (sequential_concatenates Z.succ 5 2 3 0 2 5).
  - split; [reflexivity | repeat constructor; discriminate].
  - split; [reflexivity | repeat constructor; discriminate].
  - repeat constructor; discriminate.
  - lia.
Defined.

(** ** [parallel] and [operator()] *)

Lemma units_within (U N : Z) : 1 ≤ U ≤ N → U < N ∨ N / U = 1.
Proof.
  intros HU. destruct (decide (U = N)) as [->|]; [right | left; lia].
  apply Z.div_same. lia.
Qed.

(** [parallel] on a platform of [1 <= U <= N] units. *)
Lemma parallel_constant (U : Z) (fuel : nat) (first sent : Z) (q : nat) :
  first ≤ sent → sent - first ≤ PTRDIFF_MAX → 1 ≤ U ≤ sent - first →
  (sent - first) / U ≤ Z.of_nat fuel →
  parallel (constant_provider U) fuel first sent q
  = (S (S q), Ret (sent, thread_log <$> chunks first ((sent - first) / U) U)).
Proof.
  intros Hle Hmax HU Hfuel.
  apply (parallel_within (constant_provider U)); unfold constant_provider;
    [done | done | lia | lia | by apply units_within | done].
Qed.

(** X1: with [1 <= U <= N] units at both queries, [parallel] returns
    [sent], and [f] has been called on all the positions of the range, each
    once and in order across the threads, exactly when [U] divides [N]. *)
Theorem parallel_complete_iff (U : Z) (fuel : nat) (first sent : Z) (q : nat) :
  first ≤ sent → sent - first ≤ PTRDIFF_MAX → 1 ≤ U ≤ sent - first →
  (sent - first) / U ≤ Z.of_nat fuel →
  ∃ logs,
    parallel (constant_provider U) fuel first sent q = (S (S q), Ret (sent, logs))
    ∧ (concat logs = seqZ first (sent - first) ↔ (sent - first) mod U = 0).
Proof.
  intros Hle Hmax HU Hfuel. eexists. split.
  - apply parallel_within; unfold constant_provider; [done | done | lia | lia | | done].
    destruct (decide (U = sent - first)) as [->|]; [right | left; lia].
    apply Z.div_same. lia.
  - unfold constant_provider.
    pose proof (Z.div_mod (sent - first) U ltac:(lia)) as Hdm.
    pose proof (Z.mod_pos_bound (sent - first) U ltac:(lia)) as Hmod.
    assert (0 ≤ (sent - first) / U) as Hc by (apply Z.div_pos; lia).
    rewrite concat_thread_log_chunks_Z by lia. split.
    + intros Heq. apply (f_equal length) in Heq. rewrite !length_seqZ in Heq. nia.
    + intros Hr. f_equal. lia.
Qed.

Lemma parallel_complete_iff_witness :
  ∃ logs,
    parallel (constant_provider 3) 2 0 6 0%nat = (2%nat, Ret (6, logs))
    ∧ (concat logs = [0; 1; 2; 3; 4; 5] ↔ 6 mod 3 = 0).
Proof.
  apply (parallel_complete_iff 3 2 0 6 0); [lia | by vm_compute | lia | by vm_compute].
Defined.

(** X5: with [1 <= U <= N], every thread of [parallel] calls [f] on
    [N / U] consecutive positions in ascending order, no position gets [f]
    twice, from one thread or from two, and none lies outside
    [[first, sent)]. *)
Theorem parallel_visits_in_range_once (U : Z) (fuel : nat) (first sent : Z) (q : nat) :
  first ≤ sent → sent - first ≤ PTRDIFF_MAX → 1 ≤ U ≤ sent - first →
  (sent - first) / U ≤ Z.of_nat fuel →
  ∃ logs,
    parallel (constant_provider U) fuel first sent q = (S (S q), Ret (sent, logs))
    ∧ Forall (λ log, ∃ b, log = seqZ b ((sent - first) / U)) logs
    ∧ NoDup (concat logs)
    ∧ ∀ p, p ∈ concat logs → first ≤ p < sent.
Proof.
  intros Hle Hmax HU Hfuel. eexists. split; [by apply parallel_constant|].
  pose proof (Z.div_mod (sent - first) U ltac:(lia)) as Hdm.
  pose proof (Z.mod_pos_bound (sent - first) U ltac:(lia)) as Hmod.
  assert (0 ≤ (sent - first) / U) as Hc by (apply Z.div_pos; lia).
  split; [|rewrite concat_thread_log_chunks_Z by lia; split].
  - rewrite Forall_fmap.
    eapply Forall_impl; [|exact (Forall_chunks_size first ((sent - first) / U) U)].
    intros [b e] Hbe. simpl in *. exists b. unfold thread_log. simpl. by rewrite Hbe.
  - apply NoDup_seqZ.
  - intros p Hp. apply elem_of_seqZ in Hp. lia.
Qed.

Lemma parallel_visits_in_range_once_witness :
  ∃ logs,
    parallel (constant_provider 3) 2 0 7 0%nat = (2%nat, Ret (7, logs))
    ∧ Forall (λ log, ∃ b, log = seqZ b 2) logs
    ∧ NoDup (concat logs)
    ∧ ∀ p, p ∈ concat logs → 0 ≤ p < 7.
Proof.
  apply (parallel_visits_in_range_once 3 2 0 7 0);
    [lia | by vm_compute | lia | by vm_compute].
Defined.

(** X6: with one execution unit and a non-empty range, [parallel] runs one
    thread, and that thread makes the calls [sequential] makes on the whole
    range; both return [sent]. *)
Theorem parallel_one_unit_is_sequential (fuel : nat) (first sent : Z) (q : nat) :
  first < sent → sent - first ≤ PTRDIFF_MAX → sent - first ≤ Z.of_nat fuel →
  ∃ log,
    parallel (constant_provider 1) fuel first sent q = (S (S q), Ret (sent, [log]))
    ∧ sequential Z.succ fuel first sent = Ret (sent, log).
Proof.
  intros Hlt Hmax Hfuel. exists (seqZ first (sent - first)). split.
  - rewrite parallel_constant by (rewrite ?Z.div_1_r; lia).
    rewrite Z.div_1_r. do 3 f_equal. unfold chunks, thread_log.
    change (seqZ 0 1) with [0]. simpl. do 2 f_equal; lia.
  - apply sequential_Z; lia.
Qed.

Lemma parallel_one_unit_is_sequential_witness :
  ∃ log,
    parallel (constant_provider 1) 3 0 3 0%nat = (2%nat, Ret (3, [log]))
    ∧ sequential Z.succ 3 0 3 = Ret (3, log).
Proof.
  apply (parallel_one_unit_is_sequential 3 0 3 0); [lia | by vm_compute | lia].
Defined.

(** X7: when the provider answers 0 to the partitioner, [parallel] and
    [operator()] divide by zero, after their two queries and before any
    thread is started, whatever the range and the policy. *)
Theorem zero_units_divides_by_zero (provider : nat → Z) (exPolicy : ExPolicy)
    (random_access_iterator : bool) (fuel : nat) (first sent : Z) (q : nat) :
  provider (S q) = 0 →
  parallel provider fuel first sent q = (S (S q), Fault DivisionByZero)
  ∧ operator_call provider exPolicy random_access_iterator fuel first sent q
    = (S (S q), Fault DivisionByZero).
Proof.
  intros H0.
  assert (parallel provider fuel first sent q = (S (S q), Fault DivisionByZero)) as Hpar.
  { unfold parallel, __for_each_partitioner, mbind, exec_bind, query_num_exec_unit, lift.
    rewrite H0. unfold size_t_div. by rewrite decide_True. }
  split; [done|]. by rewrite operator_call_parallel, Hpar.
Qed.

Lemma zero_units_divides_by_zero_witness :
  parallel (constant_provider 0) 4 0 4 0%nat = (2%nat, Fault DivisionByZero)
  ∧ operator_call (constant_provider 0) ParallelRequested true 4 0 4 0%nat
    = (2%nat, Fault DivisionByZero).
Proof.
  apply (zero_units_divides_by_zero (constant_provider 0) ParallelRequested true 4 0 4 0).
  reflexivity.
Defined.

(** X8: when the range has at least three elements and at least twice as
    many as there are units, the vector the partitioner returns holds a
    position beyond [sent]: its loop advances [iter] once per element, not
    once per unit. *)
Theorem partitioner_boundary_beyond_sent (U : Z) (first sent : Z) (q : nat) :
  1 ≤ U → 2 * U ≤ sent - first → 3 ≤ sent - first → sent - first ≤ PTRDIFF_MAX →
  ∃ partitions p,
    __for_each_partitioner (constant_provider U) first sent q = (S q, Ret partitions)
    ∧ partitions !! Z.to_nat (sent - first - 1) = Some p
    ∧ sent < p.
Proof.
  intros HU H2 H3 Hmax. do 2 eexists.
  split; [apply partitioner_boundaries; unfold constant_provider; lia|].
  unfold constant_provider. split; [apply lookup_boundaries_lt; lia|].
  rewrite Z2Nat.id by lia.
  assert (2 ≤ (sent - first) / U) by (apply Z.div_le_lower_bound; lia). nia.
Qed.

Lemma partitioner_boundary_beyond_sent_witness :
  ∃ partitions p,
    __for_each_partitioner (constant_provider 3) 0 7 0%nat = (1%nat, Ret partitions)
    ∧ partitions !! 6%nat = Some p
    ∧ 7 < p.
Proof.
  apply (partitioner_boundary_beyond_sent 3 0 7 0); [lia | lia | lia | by vm_compute].
Defined.

(** X9: every call of [operator()] asks the provider exactly twice, for
    every policy, iterator category and range, whether it returns, faults
    or diverges. *)
Theorem operator_call_queries_twice (provider : nat → Z) (exPolicy : ExPolicy)
    (random_access_iterator : bool) (fuel : nat) (first sent : Z) (q : nat) :
  queries_made (operator_call provider exPolicy random_access_iterator fuel first sent) q
  = 2%nat.
Proof.
  unfold queries_made. rewrite operator_call_parallel.
  pose proof (parallel_queries provider fuel first sent q) as Hq.
  destruct (parallel _ _ _ _ _) as [q' [[r logs]|e]]; simpl in *; lia.
Qed.


